(** * hacker-news: route-driven selection of the listing URL and the List View

    Shallow embedding of [src/index.js] (components [TopNews], [NewNews],
    [App]) over the part of react-router-dom's [Route] / [matchPath] that the
    two [<Route>] elements of [App] exercise, followed by a model of the
    List View ([News.js], which [index.js] imports). *)

From Stdlib Require Import Ascii String.
From stdpp Require Import base option list strings gmap.

Local Open Scope string_scope.
#[local] Set Warnings "-register-all,-clear-no-such-hyp".

(** ** react-router-dom: locations and [matchPath] on literal path patterns

    [index.js] uses the [<Route exact path component>] interface of
    react-router-dom 4 and 5, whose [matchPath] compiles the [path] prop with
    path-to-regexp 1.x under the options [{ end: exact, strict, sensitive }]
    and runs the resulting regular expression on [location.pathname]. Both
    patterns of [App] are literal (no parameter, group or wildcard), and this
    is the fragment embedded here. Strings are sequences of bytes: a byte
    outside ASCII never matches an ASCII letter of a pattern, with or without
    the [i] flag, exactly as the UTF-16 code units of the pathname do. *)

Module ReactRouter.

(** [history]'s location object, as the router context hands it to every
    [<Route>]: only [pathname] takes part in matching. How the history
    library builds this object from the address bar is [createLocation] in
    the module [History] below. *)
Record location := Location {
  pathname : string;
  search : string;
  hash : string
}.

(** The props of a [<Route>] that [index.js] sets; [component] is kept
    abstract here. *)
Record RouteProps (C : Type) := mkRoute {
  path : string;
  exact : bool;
  strict : bool;
  sensitive : bool;
  component : C
}.
Arguments mkRoute {C} _ _ _ _ _.
Arguments path {C} _.
Arguments exact {C} _.
Arguments strict {C} _.
Arguments sensitive {C} _.
Arguments component {C} _.

(** How the regular expression built by path-to-regexp ends. *)
Inductive regexp_end :=
| EndOfInput        (* [$] *)
| SegmentBoundary   (* [(?=\/|$)] *)
| Anywhere.         (* nothing appended *)

(** The regular expression [^ lit (?:\/(?=$))? end] that path-to-regexp
    produces for a pattern made of literal characters only. *)
Record regexp := mkRegexp {
  lit : string;
  optionalSlash : bool;
  ending : regexp_end;
  ignoreCase : bool
}.

Record match_result := mkMatch {
  m_path : string;
  m_url : string;
  m_isExact : bool
}.

Definition endsWithSlash (s : string) : bool :=
  match String.get (String.length s - 1) s with
  | Some c => Ascii.eqb c "/"
  | None => false
  end.

Definition dropLast (s : string) : string :=
  String.substring 0 (String.length s - 1) s.

(** [tokensToRegExp] for a single literal token, with the options
    [{ end, strict, sensitive }]. *)
Definition compilePath (p : string) (end_ strict_ sensitive_ : bool) : regexp :=
  let endsWithDelimiter := endsWithSlash p in
  {| lit := if strict_ then p
            else if endsWithDelimiter then dropLast p else p;
     optionalSlash := negb strict_;
     ending := if end_ then EndOfInput
               else if strict_ && endsWithDelimiter then Anywhere
               else SegmentBoundary;
     ignoreCase := negb sensitive_ |}.

(** Canonicalisation of the [i] flag on a code unit: ASCII letters fold
    to upper case; a code unit outside ASCII never folds onto an ASCII
    letter, so it is left alone. *)
Definition toUpper (c : ascii) : ascii :=
  let n := nat_of_ascii c in
  if (97 <=? n)%nat && (n <=? 122)%nat then ascii_of_nat (n - 32) else c.

Definition charMatches (ci : bool) (a b : ascii) : bool :=
  if ci then Ascii.eqb (toUpper a) (toUpper b) else Ascii.eqb a b.

(** Consume the literal [l] at the start of [s]: the consumed part of [s]
    (in the input's own letter case) and what is left. *)
Fixpoint matchLiteral (ci : bool) (l s : string) : option (string * string) :=
  match l with
  | EmptyString => Some (EmptyString, s)
  | String a l' =>
      match s with
      | EmptyString => None
      | String b s' =>
          if charMatches ci a b then
            match matchLiteral ci l' s' with
            | Some (m, rest) => Some (String b m, rest)
            | None => None
            end
          else None
      end
  end.

Definition startsWithSlash (s : string) : bool :=
  match s with
  | String c _ => Ascii.eqb c "/"
  | EmptyString => false
  end.

(** [regexp.exec(pathname)]: the matched text, anchored at position 0. The
    optional group is greedy; when it takes the final slash every ending
    succeeds, so there is nothing to backtrack into. *)
Definition exec (r : regexp) (s : string) : option string :=
  match matchLiteral (ignoreCase r) (lit r) s with
  | None => None
  | Some (m, rest) =>
      if optionalSlash r && (rest =? "/") then Some (m ++ "/")
      else match ending r with
           | EndOfInput => if rest =? "" then Some m else None
           | SegmentBoundary =>
               if (rest =? "") || startsWithSlash rest then Some m else None
           | Anywhere => Some m
           end
  end.

(** [matchPath(pathname, { path, exact, strict, sensitive })]. *)
Definition matchPath {C} (pathname_ : string) (props : RouteProps C)
  : option match_result :=
  let re := compilePath (path props) (exact props) (strict props)
                        (sensitive props) in
  match exec re pathname_ with
  | None => None
  | Some url =>
      let isExact := pathname_ =? url in
      if exact props && negb isExact then None
      else Some {| m_path := path props;
                   m_url := if (path props =? "/") && (url =? "")
                            then "/" else url;
                   m_isExact := isExact |}
  end.

(** What a route component receives. *)
Record RouteComponentProps := mkRCP {
  rcp_match : match_result;
  rcp_location : location
}.

End ReactRouter.

(** ** src/index.js *)

Module Index.
Import ReactRouter.

(** Rendered output. [<Nav />] and [<News url=... />] are elements of
    components defined in other files; [News] carries its [url] prop. *)
Inductive element :=
| Div (className : string) (children : list element)
| NavEl
| NewsEl (url : string).

Definition TopNews (_ : RouteComponentProps) : element :=
  let topNewsUrl := "https://hacker-news.firebaseio.com/v0/topstories.json" in
  NewsEl topNewsUrl.

Definition NewNews (_ : RouteComponentProps) : element :=
  let newestNewsUrl := "https://hacker-news.firebaseio.com/v0/newstories.json" in
  NewsEl newestNewsUrl.

(** The two function components that the routes of [App] name. *)
Inductive Component := TopNewsC | NewNewsC.

Definition createElement (c : Component) : RouteComponentProps -> element :=
  match c with
  | TopNewsC => TopNews
  | NewNewsC => NewNews
  end.

(** [<Route exact path="/" component={TopNews} />] and
    [<Route path="/new" component={NewNews} />]; [strict] and [sensitive]
    are not set and default to [false]. *)
Definition topRoute : RouteProps Component :=
  mkRoute "/" true false false TopNewsC.

Definition newRoute : RouteProps Component :=
  mkRoute "/new" false false false NewNewsC.

Definition routes : list (RouteProps Component) := [topRoute; newRoute].

(** A [<Route>] with only [component] set renders the component when its
    path matches and nothing otherwise. *)
Definition Route (props : RouteProps Component) (loc : location)
  : list element :=
  match matchPath (pathname loc) props with
  | Some m => [createElement (component props) (mkRCP m loc)]
  | None => []
  end.

Definition Nav (_ : location) : list element := [NavEl].

(** [<Router>] provides the location to its children and renders them in
    order. *)
Definition Router (loc : location) (children : list (location -> list element))
  : list element :=
  flat_map (fun child => child loc) children.

Definition App (loc : location) : element :=
  Div "root-container" (Router loc (Nav :: map Route routes)).

Definition routeMatches (p : string) (r : RouteProps Component) : bool :=
  match matchPath p r with
  | Some _ => true
  | None => false
  end.

(** The route components mounted at a location. *)
Definition mounted (loc : location) : list Component :=
  map component (List.filter (routeMatches (pathname loc)) routes).

(** The [url] props of the [News] elements in a rendered tree. *)
Fixpoint listingUrls (e : element) : list string :=
  match e with
  | Div _ children => flat_map listingUrls children
  | NavEl => []
  | NewsEl u => [u]
  end.

Definition at_path (p : string) : location := Location p "" "".

(** A path whose first segment is [new]: ["/new"] itself, or ["/new/"]
    followed by anything. *)
Definition firstSegmentIsNew (p : string) : Prop :=
  p = "/new" \/ exists rest, p = "/new/" ++ rest.

End Index.

(** ** The List View *)

Module ListView.

(** Modelled from the spec: the Item of the data model, the record that the
    upstream item endpoint returns and that [News.js] (not among the sources)
    renders. *)
Record Item := mkItem {
  id : Z;
  title : string;
  url : option string;
  score : Z;
  by_ : string;
  time : Z;
  descendants : Z
}.

(** Modelled from the spec: the states of the List View of [News.js]. *)
Inductive Phase := Idle | Loading | Ready.

(** What a fetch asks for: the listing, or the item at one position of it. *)
Inductive target :=
| Listing
| ItemAt (idx : nat) (item_id : Z).

(** A fetch, tagged with the load that issued it (a generation counter,
    bumped on every change of the listing URL) and that load's URL. *)
Record request := Request {
  rq_gen : nat;
  rq_url : string;
  rq_target : target
}.

(** How a fetch ends: a JSON array of ids, an item record, or a network or
    parse failure. *)
Inductive outcome :=
| GotListing (ids : list Z)
| GotItem (it : Item)
| Failure.

Inductive event :=
| UrlChanged (u : string)              (* the [url] prop is set or changes *)
| Settled (rq : request) (o : outcome). (* a fetch resolves or rejects *)

(** Modelled from the spec: the state of the List View of [News.js]: its
    phase, the listing URL it is bound to, the generation of the current
    load, the listing once it has arrived, and the item results collected so
    far, keyed by position in the listing. *)
Record view := View {
  phase : Phase;
  listingUrl : option string;
  generation : nat;
  listing : option (list Z);
  results : gmap nat (option Item)
}.

Definition initial : view := View Idle None 0 None ∅.

Definition allSettled (ids : list Z) (res : gmap nat (option Item)) : bool :=
  forallb (fun i => bool_decide (is_Some (res !! i))) (seq 0 (length ids)).

(** The superseded-request guard: a result is applied only when the fetch
    was issued by the current load, for the active listing URL. *)
Definition isCurrent (v : view) (rq : request) : bool :=
  bool_decide (rq_gen rq = generation v) &&
  bool_decide (listingUrl v = Some (rq_url rq)).

Definition itemRequests (g : nat) (u : string) (ids : list Z) : list request :=
  imap (fun i item_id => Request g u (ItemAt i item_id)) ids.

Definition itemOf (o : outcome) : option Item :=
  match o with GotItem it => Some it | _ => None end.

Definition listingOf (o : outcome) : list Z :=
  match o with GotListing ids => ids | _ => [] end.

Definition settle (v : view) (ids : list Z) (res : gmap nat (option Item))
  : view :=
  View (if allSettled ids res then Ready else Loading)
       (listingUrl v) (generation v) (Some ids) res.

(** Modelled from the spec: the List View of [News.js], with the List
    Fetcher and the Item Fetcher it drives; [News.js] is imported by
    [index.js] and is not among the sources. One transition of the view:
    the new state and the fetches it issues. A change of the listing URL
    starts a load (Loading, content cleared, one listing fetch); the
    listing's ids start one independent fetch per position; results are
    collected by position; a failed listing counts as an empty one and a
    failed item as an omitted one; the view is Ready once every position
    has settled; results of superseded fetches are dropped. *)
Definition step (v : view) (e : event) : view * list request :=
  match e with
  | UrlChanged u =>
      if bool_decide (listingUrl v = Some u) then (v, [])
      else
        let g := S (generation v) in
        (View Loading (Some u) g None ∅, [Request g u Listing])
  | Settled rq o =>
      if negb (isCurrent v rq) then (v, [])
      else
        match rq_target rq, listing v with
        | Listing, None =>
            let ids := listingOf o in
            (settle v ids ∅, itemRequests (generation v) (rq_url rq) ids)
        | ItemAt idx _, Some ids =>
            if bool_decide (idx < length ids)%nat
               && bool_decide (results v !! idx = None)
            then (settle v ids (<[idx := itemOf o]> (results v)), [])
            else (v, [])
        | _, _ => (v, [])
        end
  end.

(** Modelled from the spec: what the List View of [News.js] shows. Items
    in listing order once Ready, failed ones omitted; nothing while the
    load is in progress. *)
Definition rendered (v : view) : list Item :=
  match phase v, listing v with
  | Ready, Some ids =>
      omap (fun i => mjoin (results v !! i)) (seq 0 (length ids))
  | _, _ => []
  end.

(** The view after a sequence of events. *)
Definition run (v : view) (evs : list event) : view :=
  fold_left (fun w e => (step w e).1) evs v.

(** Every fetch the view issues along a sequence of events. *)
Fixpoint issued (v : view) (evs : list event) : list request :=
  match evs with
  | [] => []
  | e :: evs' => (step v e).2 ++ issued (step v e).1 evs'
  end.

(** Results of fetches issued by load [g] or an earlier one. *)
Definition fromLoadUpTo (g : nat) (e : event) : bool :=
  match e with
  | UrlChanged _ => false
  | Settled rq _ => bool_decide (rq_gen rq ≤ g)%nat
  end.

(** The transitions of the Idle, Loading, Ready machine. *)
Definition allowed (p q : Phase) : bool :=
  match p, q with
  | Idle, Idle | Idle, Loading
  | Loading, Loading | Loading, Ready
  | Ready, Ready | Ready, Loading => true
  | _, _ => false
  end.

(** The events of one load in which the item fetches settle in the order
    [order] (positions in the listing), with outcome [out i] for
    position [i]. *)
Definition itemEvents (g : nat) (u : string) (ids : list Z)
    (out : nat -> outcome) (order : list nat) : list event :=
  map (fun i => Settled (Request g u (ItemAt i (default 0%Z (ids !! i))))
                        (out i)) order.

Definition loadEvents (g : nat) (u : string) (ids : list Z)
    (out : nat -> outcome) (order : list nat) : list event :=
  UrlChanged u :: Settled (Request g u Listing) (GotListing ids)
    :: itemEvents g u ids out order.

(** The ids of a listing whose item fetch succeeded, in listing order;
    [k] is the position of the first id of [ids]. *)
Fixpoint omitFailed (out : nat -> outcome) (k : nat) (ids : list Z) : list Z :=
  match ids with
  | [] => []
  | x :: ids' =>
      match itemOf (out k) with
      | Some _ => x :: omitFailed out (S k) ids'
      | None => omitFailed out (S k) ids'
      end
  end.

(** What holds of a view reached along the events [evs] from a view with no
    listing and no results: Idle only before a URL is bound, Ready only
    with every position settled, and the listing and every collected result
    answered in [evs] by a fetch of the current load. *)
Record consistent (evs : list event) (v : view) : Prop := Consistent {
  idle_unbound : phase v = Idle -> listingUrl v = None;
  ready_settled : phase v = Ready ->
    exists ids, listing v = Some ids /\ allSettled ids (results v) = true;
  listing_answered : forall ids, listing v = Some ids ->
    exists rq o, In (Settled rq o) evs /\ isCurrent v rq = true /\
                 rq_target rq = Listing /\ ids = listingOf o;
  results_answered : forall i r, results v !! i = Some r ->
    exists rq o x, In (Settled rq o) evs /\ isCurrent v rq = true /\
                   rq_target rq = ItemAt i x /\ r = itemOf o
}.

(** A view in which a load can start: nothing fetched yet. *)
Definition fresh (v : view) : Prop :=
  listing v = None /\ results v = ∅ /\ phase v <> Ready /\
  (phase v = Idle -> listingUrl v = None).

(** An item record carrying the id [n], and an upstream that answers the
    item fetch of every position of [ids] with that id's record, except at
    the positions listed in [failing]. *)
Definition story (n : Z) : Item := mkItem n "" None 0 "" 0 0.

Definition upstream (ids : list Z) (failing : list nat) (i : nat) : outcome :=
  if bool_decide (i ∈ failing) then Failure
  else match ids !! i with
       | Some x => GotItem (story x)
       | None => Failure
       end.

End ListView.

(** ** A route switch with fetches in flight *)

Module Scenario.
Import ListView.

(** The listing URLs that [App] selects at the two routes. *)
Definition topUrl : string :=
  "https://hacker-news.firebaseio.com/v0/topstories.json".
Definition newUrl : string :=
  "https://hacker-news.firebaseio.com/v0/newstories.json".

(** On the top route the listing [5; 3; 9] has arrived and the item at
    position 0 has settled; the fetches of positions 1 and 2 are in flight. *)
Definition beforeSwitch : list event :=
  [ UrlChanged topUrl;
    Settled (Request 1 topUrl Listing) (GotListing [5; 3; 9]%Z);
    Settled (Request 1 topUrl (ItemAt 0 5)) (GotItem (story 5)) ].

(** After the switch to the new route, the two fetches of the top route
    settle in between the results of the new route's load. *)
Definition afterSwitch : list event :=
  [ Settled (Request 1 topUrl (ItemAt 1 3)) (GotItem (story 3));
    Settled (Request 2 newUrl Listing) (GotListing [7]%Z);
    Settled (Request 1 topUrl (ItemAt 2 9)) (GotItem (story 9));
    Settled (Request 2 newUrl (ItemAt 0 7)) (GotItem (story 7)) ].

End Scenario.

(** ** history: the location a [<BrowserRouter>] starts from

    The [Router] that [index.js] imports is [BrowserRouter]. When it is
    constructed it creates a browser history (history 4, which
    react-router-dom 4 and 5 depend on), whose [createLocation] passes the
    pathname of [window.location] through [decodeURI] and throws a
    [URIError] when that fails. Strings are sequences of bytes, so a decoded
    code point is written as its UTF-8 octets. *)

Module History.
Import ReactRouter.

Inductive error := URIError.

(** How an evaluation ends: with a value, or with a thrown exception. *)
Inductive completion (A : Type) :=
| Normal (a : A)
| Throw (e : error).
Arguments Normal {A} _.
Arguments Throw {A} _.

Definition hexDigit (c : ascii) : option N :=
  let n := N_of_ascii c in
  if (48 <=? n)%N && (n <=? 57)%N then Some (n - 48)%N
  else if (65 <=? n)%N && (n <=? 70)%N then Some (n - 55)%N
  else if (97 <=? n)%N && (n <=? 102)%N then Some (n - 87)%N
  else None.

(** The octet written [%XY] at the start of [s], and what follows it. *)
Definition escapedOctet (s : string) : option (ascii * string) :=
  match s with
  | String p (String h (String l rest)) =>
      if Ascii.eqb p "%" then
        match hexDigit h, hexDigit l with
        | Some a, Some b => Some (ascii_of_N (16 * a + b), rest)
        | _, _ => None
        end
      else None
  | _ => None
  end.

(** An escaped octet of the form 10xxxxxx. *)
Definition continuation (s : string) : option (N * string) :=
  match escapedOctet s with
  | Some (b, rest) =>
      let n := N_of_ascii b in
      if (128 <=? n)%N && (n <=? 191)%N then Some (n - 128, rest)%N else None
  | None => None
  end.

(** The reserved set of [decodeURI]: an escape of one of these characters is
    left as it is written. *)
Definition isReserved (c : ascii) : bool :=
  existsb (Ascii.eqb c) (list_ascii_of_string ";/?:@&=+$,#").

(** A code point that UTF-8 encodes in [n] octets: not an overlong form, not
    a surrogate, not beyond U+10FFFF. *)
Definition validCodePoint (n : nat) (v : N) : bool :=
  match n with
  | 2 => (128 <=? v)%N
  | 3 => (2048 <=? v)%N && negb ((55296 <=? v)%N && (v <=? 57343)%N)
  | 4 => (65536 <=? v)%N && (v <=? 1114111)%N
  | _ => false
  end.

(** One escape sequence at the start of [s] (which starts with a percent
    sign): what it decodes to and how many characters of [s] it takes; [None]
    where [decodeURI] throws. *)
Definition decodeEscape (s : string) : option (string * nat) :=
  match escapedOctet s with
  | None => None
  | Some (b, r1) =>
      let n := N_of_ascii b in
      if (n <? 128)%N then
        Some (if isReserved b then String.substring 0 3 s
              else String b EmptyString, 3)
      else if (n <? 192)%N then None
      else if (n <? 224)%N then
        match continuation r1 with
        | Some (c1, _) =>
            if validCodePoint 2 ((n - 192) * 64 + c1)%N
            then Some (String b (String (ascii_of_N (c1 + 128)) EmptyString), 6)
            else None
        | None => None
        end
      else if (n <? 240)%N then
        match continuation r1 with
        | Some (c1, r2) =>
            match continuation r2 with
            | Some (c2, _) =>
                if validCodePoint 3 ((n - 224) * 4096 + c1 * 64 + c2)%N
                then Some (String b (String (ascii_of_N (c1 + 128))
                            (String (ascii_of_N (c2 + 128)) EmptyString)), 9)
                else None
            | None => None
            end
        | None => None
        end
      else if (n <? 248)%N then
        match continuation r1 with
        | Some (c1, r2) =>
            match continuation r2 with
            | Some (c2, r3) =>
                match continuation r3 with
                | Some (c3, _) =>
                    if validCodePoint 4
                         ((n - 240) * 262144 + c1 * 4096 + c2 * 64 + c3)%N
                    then Some (String b (String (ascii_of_N (c1 + 128))
                                (String (ascii_of_N (c2 + 128))
                                  (String (ascii_of_N (c3 + 128))
                                     EmptyString))), 12)
                    else None
                | None => None
                end
            | None => None
            end
        | None => None
        end
      else None
  end.

(** [decodeURI] from a position of the input; [skip] counts the characters
    of an escape sequence already decoded that are still to be passed
    over. *)
Fixpoint decodeFrom (skip : nat) (s : string) : option string :=
  match s with
  | EmptyString => Some EmptyString
  | String c s' =>
      match skip with
      | S k => decodeFrom k s'
      | O =>
          if Ascii.eqb c "%" then
            match decodeEscape s with
            | Some (out, n) =>
                match decodeFrom (n - 1) s' with
                | Some t => Some (out ++ t)
                | None => None
                end
            | None => None
            end
          else
            match decodeFrom 0 s' with
            | Some t => Some (String c t)
            | None => None
            end
      end
  end.

(** [decodeURI(s)]; [None] stands for the [URIError] it throws. *)
Definition decodeURI (s : string) : option string := decodeFrom 0 s.

(** [createLocation] on the parts of [window.location]: the pathname is
    decoded, a query string or fragment that is only its delimiter is
    dropped. *)
Definition createLocation (win : location) : completion location :=
  match decodeURI (pathname win) with
  | Some p =>
      Normal (Location p
                (if search win =? "?" then "" else search win)
                (if hash win =? "#" then "" else hash win))
  | None => Throw URIError
  end.

End History.

(** ** [App] in the page *)

Module Browser.
Import ReactRouter History Index.

(** What evaluating [<App />] for [ReactDOM.render] gives when the address
    bar holds [win]: the [<Router>] of [App] throws what [createLocation]
    throws, and nothing in [index.js] catches it; otherwise [App] renders at
    the location the history holds. *)
Definition renderApp (win : location) : completion element :=
  match createLocation win with
  | Normal loc => Normal (App loc)
  | Throw e => Throw e
  end.

End Browser.

(** ** Pathnames up to letter case *)

Module Paths.
Import ReactRouter.

(** The pathname with every ASCII letter in upper case: two pathnames with
    the same image differ in letter case only. *)
Fixpoint upcase (s : string) : string :=
  match s with
  | EmptyString => EmptyString
  | String c s' => String (toUpper c) (upcase s')
  end.

End Paths.

(** ** webpack.config.js *)

Module Webpack.

(** A condition [/lit$/]: literal characters up to the end of the input
    (the only shape [webpack.config.js] uses, with [lit] the text [.js]). *)
Record condition := Suffix { suffixLit : string }.

(** The literal, then the end of the input, from the current position. *)
Fixpoint matchHere (l s : string) : bool :=
  match l, s with
  | EmptyString, EmptyString => true
  | String a l', String b s' => Ascii.eqb a b && matchHere l' s'
  | _, _ => false
  end.

(** [regexp.test(s)]: the expression is not anchored at the start, so every
    position of the input is tried, from left to right. *)
Fixpoint test (c : condition) (s : string) : bool :=
  matchHere (suffixLit c) s ||
  match s with
  | EmptyString => false
  | String _ s' => test c s'
  end.

Record Rule := mkRule {
  rule_test : condition;
  rule_use : string
}.

Record OutputOptions := mkOutput {
  filename : string
}.

Record Configuration := mkConfig {
  mode : string;
  entry : string;
  output : OutputOptions;
  rules : list Rule
}.

(** [module.exports] of [webpack.config.js]. Left out: [output.path] and
    the plugin list, which are built from [__dirname] by [path.resolve]. *)
Definition config : Configuration :=
  {| mode := "development";
     entry := "./src/index.js";
     output := {| filename := "main.js" |};
     rules := [ {| rule_test := Suffix ".js"; rule_use := "babel-loader" |} ] |}.

(** The loaders webpack runs on a module: those of every rule of
    [module.rules] whose [test] accepts the module's path. *)
Definition loadersFor (c : Configuration) (resource : string) : list string :=
  map rule_use (List.filter (fun r => test (rule_test r) resource) (rules c)).

End Webpack.

(** * Properties of the routes of [App] *)

Import ReactRouter Index.

Abbreviation topStories :=
  "https://hacker-news.firebaseio.com/v0/topstories.json" (only parsing).
Abbreviation newStories :=
  "https://hacker-news.firebaseio.com/v0/newstories.json" (only parsing).

Section Matching.

Lemma charMatches_refl ci a : charMatches ci a a = true.
Proof. destruct ci; cbn [charMatches]; apply Ascii.eqb_refl. Qed.

Lemma matchLiteral_app ci l rest :
  matchLiteral ci l (l ++ rest) = Some (l, rest).
Proof.
  induction l as [|a l IH]; simpl; [done|].
  by rewrite charMatches_refl, IH.
Qed.

(** The exact root route accepts the root path only (and the empty
    pathname, which the optional final slash of the pattern lets through). *)
Lemma topRoute_matches p :
  routeMatches p topRoute = true <-> p = "/" \/ p = "".
Proof.
  unfold routeMatches, matchPath, exec; cbn.
  destruct (String.eqb_spec p "/") as [->|Hs]; cbn; [by split; auto|].
  destruct (String.eqb_spec p "") as [->|He]; cbn; [by split; auto|].
  split; [done | intros [?|?]; congruence].
Qed.

Lemma newRoute_matches p :
  routeMatches p newRoute = true <->
  exists m rest, matchLiteral true "/new" p = Some (m, rest) /\
                 (rest = "" \/ startsWithSlash rest = true).
Proof.
  unfold routeMatches, matchPath, exec.
  change (compilePath (path newRoute) (exact newRoute) (strict newRoute)
            (sensitive newRoute))
    with (mkRegexp "/new" true SegmentBoundary true).
  cbn [lit ignoreCase optionalSlash ending exact newRoute andb].
  destruct (matchLiteral true "/new" p) as [[m rest]|]; cycle 1.
  { split; [done | intros (? & ? & [=] & _)]. }
  destruct (String.eqb_spec rest "/") as [->|Hs].
  { split; [intros _; exists m, "/"; auto | done]. }
  destruct (String.eqb_spec rest "") as [->|He]; cbn [orb].
  { split; [intros _; exists m, ""; auto | done]. }
  destruct (startsWithSlash rest) eqn:Hr.
  - split; [intros _; exists m, rest; auto | done].
  - split; [done |].
    intros (m' & rest' & [= <- <-] & [?|?]); congruence.
Qed.

Lemma newRoute_rejects_root p :
  p = "/" \/ p = "" -> routeMatches p newRoute = false.
Proof. by intros [->| ->]. Qed.

Lemma newRoute_accepts_segment p :
  firstSegmentIsNew p -> routeMatches p newRoute = true.
Proof.
  intros Hp. apply newRoute_matches.
  destruct Hp as [->|[rest ->]].
  - exists "/new", "". split; [apply (matchLiteral_app true "/new" "") | by left].
  - exists "/new", ("/" ++ rest). split; [| by right].
    apply (matchLiteral_app true "/new" ("/" ++ rest)).
Qed.

Lemma topRoute_rejects_segment p :
  firstSegmentIsNew p -> routeMatches p topRoute = false.
Proof.
  intros Hp. destruct (routeMatches p topRoute) eqn:E; [|done].
  apply topRoute_matches in E.
  destruct Hp as [->|[rest ->]], E as [?|?]; discriminate.
Qed.

(** The two routes never match the same pathname. *)
Lemma routes_exclusive p :
  routeMatches p topRoute = true -> routeMatches p newRoute = false.
Proof. intros H. by apply newRoute_rejects_root, topRoute_matches. Qed.

(** What [App] renders is fixed by which of the two routes match. *)
Lemma App_unfold loc :
  App loc =
  Div "root-container"
    (NavEl ::
     ((if routeMatches (pathname loc) topRoute
       then [NewsEl topStories] else [])
      ++ (if routeMatches (pathname loc) newRoute
          then [NewsEl newStories] else []))%list).
Proof.
  unfold App, Router, routes; cbn [map flat_map Nav app].
  unfold Route, routeMatches.
  by destruct (matchPath (pathname loc) topRoute),
              (matchPath (pathname loc) newRoute).
Qed.

Lemma mounted_unfold loc :
  mounted loc =
  ((if routeMatches (pathname loc) topRoute then [TopNewsC] else [])
   ++ (if routeMatches (pathname loc) newRoute then [NewNewsC] else []))%list.
Proof.
  unfold mounted, routes; cbn [List.filter].
  by destruct (routeMatches (pathname loc) topRoute),
              (routeMatches (pathname loc) newRoute).
Qed.

End Matching.

(** C3: the Route Selector maps the path "/" to the top-stories listing URL
    and the path "/new" to the new-stories listing URL (whatever the query
    string and fragment are); [App] declares exactly these two routes, and
    no location selects any other listing URL. *)
Theorem C3_route_selector :
  (forall s h, listingUrls (App (Location "/" s h)) = [topStories]) /\
  (forall s h, listingUrls (App (Location "/new" s h)) = [newStories]) /\
  map (fun r => (path r, component r)) routes
    = [("/", TopNewsC); ("/new", NewNewsC)] /\
  (forall loc u, In u (listingUrls (App loc)) ->
                 u = topStories \/ u = newStories).
Proof.
  repeat split; try reflexivity.
  intros loc u. rewrite App_unfold. cbn [listingUrls flat_map].
  destruct (routeMatches (pathname loc) topRoute),
           (routeMatches (pathname loc) newRoute); cbn; intuition.
Qed.

Lemma C3_route_selector_witness :
  In newStories (listingUrls (App (at_path "/new/comments"))) /\
  (newStories = topStories \/ newStories = newStories).
Proof.
  split; [by left|].
  apply (proj2 (proj2 (proj2 C3_route_selector)) (at_path "/new/comments")).
  by left.
Defined.

(** At every location whose pathname is not the root path, [App] renders
    the container with the navigation bar, followed by nothing when no route
    matches, by the new-stories view when the "/new" route matches, and by
    the top-stories view at the empty pathname. *)
Lemma off_root_location_renders (loc : location) :
  pathname loc <> "/" ->
  (mounted loc = [] /\ App loc = Div "root-container" [NavEl]) \/
  (mounted loc = [NewNewsC] /\
   App loc = Div "root-container" [NavEl; NewsEl newStories]) \/
  (pathname loc = "" /\
   App loc = Div "root-container" [NavEl; NewsEl topStories]).
Proof.
  intros Hroot. rewrite App_unfold, mounted_unfold.
  destruct (routeMatches (pathname loc) topRoute) eqn:Et.
  - rewrite (routes_exclusive _ Et).
    apply topRoute_matches in Et as [?|?]; [done|]. right; right. by split.
  - destruct (routeMatches (pathname loc) newRoute); [right; left | left]; done.
Qed.

(** C8: the root route is exact, so it mounts the top-stories view at the
    root path only (and at the empty pathname, which the pattern's optional
    final slash lets through); no location mounts both views, and no
    rendered tree holds both listing URLs; at "/" only the top-stories view
    renders and at "/new" only the new-stories view. *)
Theorem C8_views_exclusive :
  exact topRoute = true /\
  (forall loc, In TopNewsC (mounted loc) <->
               pathname loc = "/" \/ pathname loc = "") /\
  (forall loc, ~ (In TopNewsC (mounted loc) /\ In NewNewsC (mounted loc))) /\
  (forall loc, ~ (In topStories (listingUrls (App loc)) /\
                  In newStories (listingUrls (App loc)))) /\
  (forall s h, mounted (Location "/" s h) = [TopNewsC] /\
               App (Location "/" s h)
                 = Div "root-container" [NavEl; NewsEl topStories]) /\
  (forall s h, mounted (Location "/new" s h) = [NewNewsC] /\
               App (Location "/new" s h)
                 = Div "root-container" [NavEl; NewsEl newStories]).
Proof.
  split; [reflexivity|]. split; [|split; [|split; [|by split]]].
  - intros loc. rewrite mounted_unfold, <- topRoute_matches.
    destruct (routeMatches (pathname loc) topRoute),
             (routeMatches (pathname loc) newRoute); cbn; intuition congruence.
  - intros loc. rewrite mounted_unfold.
    destruct (routeMatches (pathname loc) topRoute) eqn:Et.
    + rewrite (routes_exclusive _ Et). cbn. intuition congruence.
    + destruct (routeMatches (pathname loc) newRoute); cbn; intuition congruence.
  - intros loc. rewrite App_unfold. cbn [listingUrls flat_map].
    destruct (routeMatches (pathname loc) topRoute) eqn:Et.
    + rewrite (routes_exclusive _ Et). cbn. intuition congruence.
    + destruct (routeMatches (pathname loc) newRoute); cbn; intuition congruence.
Qed.

(** C9: the "/new" route is not exact, so every path whose first segment is
    "new" mounts the new-stories view and nothing else; some path other than
    "/" and "/new" is accepted. *)
Theorem C9_new_route_accepts_subpaths :
  exact newRoute = false /\
  (forall loc, firstSegmentIsNew (pathname loc) ->
     mounted loc = [NewNewsC] /\
     App loc = Div "root-container" [NavEl; NewsEl newStories]) /\
  (exists p, p <> "/" /\ p <> "/new" /\ mounted (at_path p) = [NewNewsC]).
Proof.
  split; [reflexivity|]. split.
  - intros loc Hp. rewrite App_unfold, mounted_unfold.
    by rewrite (topRoute_rejects_segment _ Hp), (newRoute_accepts_segment _ Hp).
  - by exists "/new/anything".
Qed.

Lemma C9_new_route_accepts_subpaths_witness :
  mounted (at_path "/new/anything") = [NewNewsC] /\
  App (at_path "/new/anything")
    = Div "root-container" [NavEl; NewsEl newStories].
Proof.
  apply (proj1 (proj2 C9_new_route_accepts_subpaths) (at_path "/new/anything")).
  right. by exists "anything".
Defined.

(** C10: [TopNews] and [NewNews] pass their constant URL whatever props the
    route hands them, and what [App] renders, hence the listing URL it
    selects, depends on the location through its pathname only. *)
Theorem C10_selection_depends_on_path_only :
  (forall props, TopNews props = NewsEl topStories) /\
  (forall props, NewNews props = NewsEl newStories) /\
  (forall l1 l2, pathname l1 = pathname l2 ->
     App l1 = App l2 /\ listingUrls (App l1) = listingUrls (App l2)).
Proof.
  split; [done|]. split; [done|].
  intros l1 l2 Hp. rewrite !App_unfold, Hp. by split.
Qed.

Lemma C10_selection_depends_on_path_only_witness :
  App (Location "/new" "?p=2" "#top") = App (at_path "/new") /\
  listingUrls (App (Location "/new" "?p=2" "#top"))
    = listingUrls (App (at_path "/new")).
Proof.
  apply (proj2 (proj2 C10_selection_depends_on_path_only)
           (Location "/new" "?p=2" "#top") (at_path "/new")).
  reflexivity.
Defined.

(** * Properties of the List View *)

Import ListView.
Local Open Scope list_scope.

Section ViewSteps.

Lemma run_app v evs1 evs2 : run v (evs1 ++ evs2) = run (run v evs1) evs2.
Proof. apply fold_left_app. Qed.

Lemma run_cons v e evs : run v (e :: evs) = run (step v e).1 evs.
Proof. reflexivity. Qed.

Lemma run_snoc v evs e : run v (evs ++ [e]) = (step (run v evs) e).1.
Proof. by rewrite run_app. Qed.

(** The guard: a result that does not belong to the current load changes
    nothing and starts nothing. *)
Lemma step_superseded v rq o :
  isCurrent v rq = false -> step v (Settled rq o) = (v, []).
Proof. intros H. cbn [step]. by rewrite H. Qed.

Lemma generation_mono v e : generation v <= generation (step v e).1.
Proof.
  destruct e as [u|rq o]; cbn [step].
  - case_bool_decide; cbn; lia.
  - destruct (isCurrent v rq); cbn [negb]; [|done].
    destruct (rq_target rq), (listing v); cbn; try done.
    destruct (_ && _); cbn; done.
Qed.

Lemma generation_run_mono evs v : generation v <= generation (run v evs).
Proof.
  revert v. induction evs as [|e evs IH]; intros v; [done|].
  rewrite run_cons. etrans; [apply (generation_mono v e) | apply IH].
Qed.

(** Every fetch the view issues carries the generation and the URL of the
    load it belongs to. *)
Lemma step_issues_current v e rq :
  In rq (step v e).2 -> isCurrent (step v e).1 rq = true.
Proof.
  unfold isCurrent. destruct e as [u|rq' o]; cbn [step].
  - case_bool_decide; cbn; [done|]. intros [<-|[]]; cbn.
    by rewrite !bool_decide_eq_true_2.
  - destruct (isCurrent v rq') eqn:Hc; cbn [negb]; [|done].
    apply andb_true_iff in Hc as [Hg Hu].
    apply bool_decide_eq_true in Hg, Hu.
    destruct (rq_target rq'), (listing v); cbn; try done.
    + unfold itemRequests. intros Hin. apply list_elem_of_In in Hin.
      apply elem_of_lookup_imap in Hin as (i & x & -> & _); cbn.
      by rewrite !bool_decide_eq_true_2.
    + destruct (_ && _); cbn; done.
Qed.

Lemma issued_app v evs1 evs2 :
  issued v (evs1 ++ evs2) = issued v evs1 ++ issued (run v evs1) evs2.
Proof.
  revert v. induction evs1 as [|e evs1 IH]; intros v; [done|].
  cbn [app issued]. by rewrite IH, run_cons, app_assoc.
Qed.

Lemma issued_generation evs v rq :
  In rq (issued v evs) -> rq_gen rq <= generation (run v evs).
Proof.
  revert v. induction evs as [|e evs IH]; intros v; [done|].
  cbn [issued]. rewrite in_app_iff, run_cons. intros [Hin|Hin].
  - apply step_issues_current, andb_true_iff in Hin as [Hg _].
    apply bool_decide_eq_true in Hg. rewrite Hg. apply generation_run_mono.
  - by apply IH.
Qed.

(** Results of fetches issued by an earlier load have no effect on the
    view, whatever else happens in between. *)
Lemma run_drops_superseded evs v g :
  g < generation v ->
  run v evs = run v (List.filter (fun e => negb (fromLoadUpTo g e)) evs).
Proof.
  revert v. induction evs as [|e evs IH]; intros v Hg; [done|].
  cbn [List.filter].
  destruct (fromLoadUpTo g e) eqn:He; cbn [negb].
  - destruct e as [u|rq o]; [done|]. cbn in He.
    apply bool_decide_eq_true in He.
    rewrite run_cons, step_superseded; [by apply IH|].
    unfold isCurrent. rewrite bool_decide_eq_false_2; [done|lia].
  - rewrite !run_cons. apply IH.
    pose proof (generation_mono v e). lia.
Qed.

End ViewSteps.

Lemma allSettled_true ids res :
  (forall j, j < length ids -> is_Some (res !! j)) -> allSettled ids res = true.
Proof.
  intros H. apply forallb_forall. intros j Hj%in_seq.
  apply bool_decide_eq_true, H. lia.
Qed.

Lemma allSettled_lookup ids res j :
  allSettled ids res = true -> j < length ids -> is_Some (res !! j).
Proof.
  intros H Hj. unfold allSettled in H. rewrite forallb_forall in H.
  eapply bool_decide_eq_true, H, in_seq. lia.
Qed.

Section OneLoad.

Variables (v0 : view) (g : nat) (u : string) (ids : list Z).
Variable out : nat -> outcome.
Hypothesis Hgen : generation v0 = g.
Hypothesis Hurl : listingUrl v0 = Some u.

(** One item result of the current load fills its own position. *)
Lemma step_item res i x o :
  i < length ids -> res !! i = None ->
  step (settle v0 ids res) (Settled (Request g u (ItemAt i x)) o)
  = (settle v0 ids (<[i := itemOf o]> res), []).
Proof using Hgen Hurl.
  intros Hi Hres. unfold step, isCurrent, settle. cbn.
  rewrite Hgen, Hurl, !bool_decide_eq_true_2 by done. done.
Qed.

(** Item results arriving in any order [order] fill exactly the positions
    of [order], each with its own outcome, and start no further fetch. *)
Lemma run_itemEvents order :
  forall res,
  NoDup order ->
  (forall i, i ∈ order -> i < length ids /\ res !! i = None) ->
  exists res',
    run (settle v0 ids res) (itemEvents g u ids out order)
      = settle v0 ids res' /\
    issued (settle v0 ids res) (itemEvents g u ids out order) = [] /\
    forall j, res' !! j
              = if decide (j ∈ order) then Some (itemOf (out j)) else res !! j.
Proof using Hgen Hurl.
  induction order as [|i order IH]; intros res Hnd Hfree.
  - exists res. by repeat split.
  - apply NoDup_cons in Hnd as [Hi Hnd].
    destruct (Hfree i) as [Hlt Hnone]; [set_solver|].
    destruct (IH (<[i := itemOf (out i)]> res) Hnd) as (res' & Hrun & Hiss & Hlk).
    { intros j Hj. split; [apply Hfree; set_solver|].
      rewrite lookup_insert_ne by set_solver. apply Hfree; set_solver. }
    exists res'. cbn [itemEvents map issued].
    rewrite run_cons, step_item by done. cbn [fst snd app].
    repeat split; try done.
    intros j. rewrite Hlk.
    destruct (decide (j = i)) as [->|Hne].
    + rewrite decide_False by done. rewrite decide_True by set_solver.
      by rewrite lookup_insert_eq.
    + rewrite lookup_insert_ne by done.
      destruct (decide (j ∈ order)).
      * by rewrite decide_True by set_solver.
      * by rewrite decide_False by set_solver.
Qed.

(** Once every item fetch has settled, in whatever order, the view is
    Ready and shows the successful items by position. *)
Lemma run_items_any_order order :
  order ≡ₚ seq 0 (length ids) ->
  let v' := run (settle v0 ids ∅) (itemEvents g u ids out order) in
  phase v' = Ready /\ listingUrl v' = Some u /\ generation v' = g /\
  rendered v' = omap (fun i => itemOf (out i)) (seq 0 (length ids)) /\
  issued (settle v0 ids ∅) (itemEvents g u ids out order) = [].
Proof using Hgen Hurl.
  intros Hperm.
  destruct (run_itemEvents order ∅) as (res' & Hrun & Hiss & Hlk).
  { rewrite Hperm. apply NoDup_seq. }
  { intros i Hi. rewrite Hperm in Hi. apply elem_of_seq in Hi.
    split; [lia | apply lookup_empty]. }
  assert (forall j, j < length ids -> res' !! j = Some (itemOf (out j))) as Hall.
  { intros j Hj. rewrite Hlk, decide_True; [done|].
    rewrite Hperm. apply elem_of_seq. lia. }
  assert (allSettled ids res' = true) as Hs.
  { apply allSettled_true. intros j Hj. rewrite Hall by done. by eexists. }
  cbn zeta. rewrite Hrun. unfold settle, rendered. cbn. rewrite Hs.
  repeat split; try done.
  apply list_omap_ext, Forall2_same_length_lookup. split; [done|].
  intros i a b Ha Hb. rewrite Ha in Hb. injection Hb as <-.
  apply lookup_seq in Ha as [-> Hlt]. by rewrite Hall.
Qed.

End OneLoad.

Section Loads.

Variables (v : view) (u : string).
Hypothesis Hfresh : listingUrl v <> Some u.

Lemma step_url_changed :
  step v (UrlChanged u)
  = (View Loading (Some u) (S (generation v)) None ∅,
     [Request (S (generation v)) u Listing]).
Proof using Hfresh. cbn [step]. by rewrite bool_decide_eq_false_2. Qed.

Lemma step_listing o :
  let g := S (generation v) in
  let w := View Loading (Some u) g None ∅ in
  let ids := match o with GotListing ids => ids | _ => [] end in
  step w (Settled (Request g u Listing) o)
  = (settle w ids ∅, itemRequests g u ids).
Proof using Type.
  cbn zeta. unfold step, isCurrent. cbn.
  by rewrite !bool_decide_eq_true_2.
Qed.

(** A whole load: the URL changes, the listing arrives, the item fetches
    settle in the order [order]. *)
Lemma run_load ids out order :
  order ≡ₚ seq 0 (length ids) ->
  let g := S (generation v) in
  let v' := run v (loadEvents g u ids out order) in
  issued v (loadEvents g u ids out order)
    = Request g u Listing :: itemRequests g u ids /\
  phase v' = Ready /\ listingUrl v' = Some u /\ generation v' = g /\
  rendered v' = omap (fun i => itemOf (out i)) (seq 0 (length ids)).
Proof using Hfresh.
  intros Hperm. cbn zeta. unfold loadEvents. cbn [issued].
  rewrite !run_cons, step_url_changed. cbn [fst snd].
  rewrite (step_listing (GotListing ids)). cbn [fst snd].
  set (w := View Loading (Some u) (S (generation v)) None ∅).
  destruct (run_items_any_order w (S (generation v)) u ids out
              eq_refl eq_refl order Hperm) as (Hp & Hu & Hg & Hr & Hi).
  rewrite Hi, app_nil_r. by repeat split.
Qed.

End Loads.

Section ListingOrder.

Variable out : nat -> outcome.

Lemma ids_of_rendered ids : forall k,
  (forall i it, i < length ids -> out (k + i) = GotItem it ->
                ids !! i = Some (id it)) ->
  map id (omap (fun i => itemOf (out i)) (seq k (length ids)))
  = omitFailed out k ids.
Proof.
  induction ids as [|x ids IH]; intros k Hvalid; [done|].
  cbn [length seq omitFailed]. csimpl.
  assert (map id (omap (fun i => itemOf (out i)) (seq (S k) (length ids)))
          = omitFailed out (S k) ids) as Htl.
  { apply IH. intros i it Hi Ho. apply (Hvalid (S i) it); [cbn; lia|].
    by rewrite Nat.add_succ_r. }
  destruct (out k) as [l|it|] eqn:Hk; cbn [itemOf]; try done.
  cbn [map]. rewrite Htl. f_equal.
  specialize (Hvalid 0 it). rewrite Nat.add_0_r in Hvalid.
  cbn in Hvalid. by injection (Hvalid ltac:(lia) Hk).
Qed.

Lemma omitFailed_all ids : forall k,
  (forall i, i < length ids -> is_Some (itemOf (out (k + i)))) ->
  omitFailed out k ids = ids.
Proof.
  induction ids as [|x ids IH]; intros k Hall; [done|].
  cbn [omitFailed]. destruct (Hall 0) as [it Hit]; [cbn; lia|].
  rewrite Nat.add_0_r in Hit. rewrite Hit. f_equal. apply IH.
  intros i Hi. replace (S k + i) with (k + S i) by lia. apply Hall. cbn. lia.
Qed.

Lemma omitFailed_sublist ids : forall k, omitFailed out k ids `sublist_of` ids.
Proof.
  induction ids as [|x ids IH]; intros k; [done|].
  cbn [omitFailed]. destruct (itemOf (out k)).
  - by apply sublist_skip.
  - by apply sublist_cons.
Qed.

End ListingOrder.

(** C1: for every listing response and every order in which the item
    fetches complete (a permutation of the listing's positions), with every
    item fetch answered by the record of the id it asked for, the view ends
    Ready and the ids of the rendered items are the listing, in the listing's
    order; the results in the trace answer the fetches the view issued. For
    the listing [5; 3; 9] completing in the order 9, 5, 3 this is
    [C1_rendered_in_listing_order_witness]. *)
Theorem C1_rendered_in_listing_order
    (v : view) (u : string) (ids : list Z) (out : nat -> outcome)
    (order : list nat) :
  listingUrl v <> Some u ->
  order ≡ₚ seq 0 (length ids) ->
  (forall i x, ids !! i = Some x -> exists it, out i = GotItem it /\ id it = x) ->
  issued v (loadEvents (S (generation v)) u ids out order)
    = Request (S (generation v)) u Listing
        :: itemRequests (S (generation v)) u ids /\
  phase (run v (loadEvents (S (generation v)) u ids out order)) = Ready /\
  map id (rendered (run v (loadEvents (S (generation v)) u ids out order)))
    = ids.
Proof.
  intros Hfresh Hperm Hvalid.
  destruct (run_load v u Hfresh ids out order Hperm) as (Hi & Hp & _ & _ & Hr).
  split; [done|]. split; [done|]. rewrite Hr, ids_of_rendered.
  - apply omitFailed_all. intros i Hi'.
    destruct (lookup_lt_is_Some_2 ids i Hi') as [x Hx].
    destruct (Hvalid i x Hx) as (it & Ho & _). cbn. rewrite Ho. by eexists.
  - intros i it Hi' Ho. cbn in Ho.
    destruct (lookup_lt_is_Some_2 ids i Hi') as [x Hx].
    destruct (Hvalid i x Hx) as (it' & Ho' & <-). congruence.
Qed.

Lemma C1_rendered_in_listing_order_witness :
  phase (run initial (loadEvents 1 topStories [5; 3; 9]%Z
                        (upstream [5; 3; 9]%Z []) [2; 0; 1])) = Ready /\
  map id (rendered (run initial (loadEvents 1 topStories [5; 3; 9]%Z
                                   (upstream [5; 3; 9]%Z []) [2; 0; 1])))
    = [5; 3; 9]%Z.
Proof.
  apply (C1_rendered_in_listing_order initial topStories [5; 3; 9]%Z
           (upstream [5; 3; 9]%Z []) [2; 0; 1]).
  - discriminate.
  - apply (Permutation_cons_append [0; 1] 2).
  - intros [|[|[|i]]] x [= <-]; eexists; split; reflexivity.
Defined.

(** C4: when some item fetches fail and the others are answered by the
    record of the id they asked for, in any completion order, the view still
    ends Ready, and the ids of the rendered items are the listing with the
    failed positions left out, in the listing's order: a subsequence of the
    listing. For the listing [5; 3; 9] with the fetch of id 3 failing this is
    [5; 9] ([C4_failed_item_omitted_witness]). *)
Theorem C4_failed_item_omitted
    (v : view) (u : string) (ids : list Z) (out : nat -> outcome)
    (order : list nat) :
  listingUrl v <> Some u ->
  order ≡ₚ seq 0 (length ids) ->
  (forall i it, i < length ids -> out i = GotItem it ->
                ids !! i = Some (id it)) ->
  phase (run v (loadEvents (S (generation v)) u ids out order)) = Ready /\
  map id (rendered (run v (loadEvents (S (generation v)) u ids out order)))
    = omitFailed out 0 ids /\
  map id (rendered (run v (loadEvents (S (generation v)) u ids out order)))
    `sublist_of` ids.
Proof.
  intros Hfresh Hperm Hvalid.
  destruct (run_load v u Hfresh ids out order Hperm) as (_ & Hp & _ & _ & Hr).
  split; [done|]. rewrite Hr, ids_of_rendered by done.
  split; [done | apply omitFailed_sublist].
Qed.

Lemma C4_failed_item_omitted_witness :
  phase (run initial (loadEvents 1 topStories [5; 3; 9]%Z
                        (upstream [5; 3; 9]%Z [1]) [2; 0; 1])) = Ready /\
  map id (rendered (run initial (loadEvents 1 topStories [5; 3; 9]%Z
                                   (upstream [5; 3; 9]%Z [1]) [2; 0; 1])))
    = [5; 9]%Z /\
  map id (rendered (run initial (loadEvents 1 topStories [5; 3; 9]%Z
                                   (upstream [5; 3; 9]%Z [1]) [2; 0; 1])))
    `sublist_of` [5; 3; 9]%Z.
Proof.
  apply (C4_failed_item_omitted initial topStories [5; 3; 9]%Z
           (upstream [5; 3; 9]%Z [1]) [2; 0; 1]).
  - discriminate.
  - apply (Permutation_cons_append [0; 1] 2).
  - intros [|[|[|i]]] it Hi [= <-]; reflexivity.
Defined.

(** C5: when the listing fetch returns the empty array, the view is Ready
    with no rendered item, and it starts no item fetch. *)
Theorem C5_empty_listing_ready (v : view) (u : string) :
  listingUrl v <> Some u ->
  phase (run v [UrlChanged u;
                Settled (Request (S (generation v)) u Listing) (GotListing [])])
    = Ready /\
  rendered (run v [UrlChanged u;
                   Settled (Request (S (generation v)) u Listing)
                           (GotListing [])]) = [] /\
  issued v [UrlChanged u;
            Settled (Request (S (generation v)) u Listing) (GotListing [])]
    = [Request (S (generation v)) u Listing].
Proof.
  intros Hfresh.
  destruct (run_load v u Hfresh [] (fun _ => Failure) [] ltac:(done))
    as (Hi & Hp & _ & _ & Hr).
  by repeat split.
Qed.

Lemma C5_empty_listing_ready_witness :
  phase (run initial [UrlChanged newStories;
                      Settled (Request 1 newStories Listing) (GotListing [])])
    = Ready /\
  rendered (run initial [UrlChanged newStories;
                         Settled (Request 1 newStories Listing)
                                 (GotListing [])]) = [] /\
  issued initial [UrlChanged newStories;
                  Settled (Request 1 newStories Listing) (GotListing [])]
    = [Request 1 newStories Listing].
Proof.
  apply (C5_empty_listing_ready initial newStories). discriminate.
Defined.

Section Invariant.

(** The four ways a transition can go. *)
Lemma step_cases v e :
  (step v e).1 = v \/
  (exists u, e = UrlChanged u /\ listingUrl v <> Some u /\
     (step v e).1 = View Loading (Some u) (S (generation v)) None ∅) \/
  (exists rq o, e = Settled rq o /\ isCurrent v rq = true /\
     rq_target rq = Listing /\ listing v = None /\
     (step v e).1 = settle v (listingOf o) ∅) \/
  (exists rq o idx x ids, e = Settled rq o /\ isCurrent v rq = true /\
     rq_target rq = ItemAt idx x /\ listing v = Some ids /\
     idx < length ids /\ results v !! idx = None /\
     (step v e).1 = settle v ids (<[idx := itemOf o]> (results v))).
Proof.
  destruct e as [u|rq o]; cbn [step].
  - case_bool_decide; [by left|]. right; left. by exists u.
  - destruct (isCurrent v rq) eqn:Hc; cbn [negb]; [|by left].
    destruct (rq_target rq) as [|idx x] eqn:Ht, (listing v) as [ids|] eqn:Hl;
      try (by left).
    + right; right; left. by exists rq, o.
    + destruct (bool_decide (idx < length ids)) eqn:Hi; cbn [andb]; [|by left].
      destruct (bool_decide (results v !! idx = None)) eqn:Hr; [|by left].
      apply bool_decide_eq_true in Hi, Hr.
      right; right; right. by exists rq, o, idx, x, ids.
Qed.

Lemma isCurrent_settle v ids res rq :
  isCurrent (settle v ids res) rq = isCurrent v rq.
Proof. reflexivity. Qed.

Lemma consistent_fresh v : fresh v -> consistent [] v.
Proof.
  intros (Hl & Hr & Hp & Hi). split; [done|done| |].
  - intros ids. by rewrite Hl.
  - intros i r. by rewrite Hr, lookup_empty.
Qed.

Lemma consistent_later evs e v : consistent evs v -> consistent (evs ++ [e]) v.
Proof.
  intros [Hi Hr Hl Hs]. split; [done|done| |].
  - intros ids Hids. destruct (Hl ids Hids) as (rq & o & Hin & ?).
    exists rq, o. split; [apply in_app_iff; by left | done].
  - intros i r Hir. destruct (Hs i r Hir) as (rq & o & x & Hin & ?).
    exists rq, o, x. split; [apply in_app_iff; by left | done].
Qed.

Lemma consistent_step evs v e :
  consistent evs v -> consistent (evs ++ [e]) (step v e).1.
Proof.
  intros Hc.
  destruct (step_cases v e) as
    [-> | [(u & -> & Hu & ->) | [(rq & o & -> & Hcur & Ht & Hl & ->)
          | (rq & o & idx & x & ids & -> & Hcur & Ht & Hl & Hlt & Hnone & ->)]]].
  - by apply consistent_later.
  - by split.
  - split; unfold settle; cbn.
    + by destruct (allSettled _ _).
    + destruct (allSettled _ _) eqn:Hs; [|done]. intros _. by eexists.
    + intros ids [= <-]. exists rq, o.
      split; [apply in_app_iff; right; by left | done].
    + intros i r. by rewrite lookup_empty.
  - split; unfold settle; cbn.
    + by destruct (allSettled _ _).
    + destruct (allSettled _ _) eqn:Hs; [|done]. intros _. by eexists.
    + intros ids' [= <-].
      destruct (listing_answered _ _ Hc ids Hl) as (rq' & o' & Hin & ?).
      exists rq', o'. split; [apply in_app_iff; by left | done].
    + intros i r. destruct (decide (idx = i)) as [<-|Hne].
      * rewrite lookup_insert_eq. intros [= <-]. exists rq, o, x.
        split; [apply in_app_iff; right; by left | done].
      * rewrite lookup_insert_ne by done. intros Hir.
        destruct (results_answered _ _ Hc i r Hir) as (rq' & o' & x' & Hin & ?).
        exists rq', o', x'. split; [apply in_app_iff; by left | done].
Qed.

Lemma consistent_run evs : forall v,
  fresh v -> consistent evs (run v evs).
Proof.
  induction evs as [|e evs IH] using rev_ind; intros v Hv.
  - by apply consistent_fresh.
  - rewrite run_snoc. by apply consistent_step, IH.
Qed.

Lemma fresh_initial : fresh initial.
Proof. by repeat split. Qed.

Lemma fresh_url_changed v u :
  listingUrl v <> Some u -> fresh (step v (UrlChanged u)).1.
Proof. intros Hu. rewrite step_url_changed by done. by repeat split. Qed.

(** A Ready view ignores every fetch result: only a change of the listing
    URL makes it leave Ready. *)
Lemma ready_stable evs v rq o :
  consistent evs v -> phase v = Ready -> step v (Settled rq o) = (v, []).
Proof.
  intros Hc Hp. destruct (ready_settled _ _ Hc Hp) as (ids & Hl & Hs).
  cbn [step]. destruct (isCurrent v rq); cbn [negb]; [|done].
  rewrite Hl. destruct (rq_target rq) as [|idx x]; [done|].
  case_bool_decide as Hi; cbn [andb]; [|done].
  rewrite bool_decide_eq_false_2; [done|].
  destruct (allSettled_lookup ids (results v) idx Hs Hi) as [r Hr].
  by rewrite Hr.
Qed.

(** Every phase change along a run is a transition of the machine. *)
Lemma step_allowed evs v e :
  consistent evs v -> allowed (phase v) (phase (step v e).1) = true.
Proof.
  intros Hc.
  destruct (step_cases v e) as
    [-> | [(u & -> & Hu & ->) | [(rq & o & -> & Hcur & Ht & Hl & ->)
          | (rq & o & idx & x & ids & -> & Hcur & Ht & Hl & Hlt & Hnone & ->)]]].
  - by destruct (phase v).
  - by destruct (phase v).
  - apply andb_true_iff in Hcur as [_ Hurl]. apply bool_decide_eq_true in Hurl.
    unfold settle; cbn. destruct (phase v) eqn:Hp.
    + by rewrite (idle_unbound _ _ Hc Hp) in Hurl.
    + by destruct (allSettled _ _).
    + by destruct (allSettled _ _).
  - apply andb_true_iff in Hcur as [_ Hurl]. apply bool_decide_eq_true in Hurl.
    unfold settle; cbn. destruct (phase v) eqn:Hp.
    + by rewrite (idle_unbound _ _ Hc Hp) in Hurl.
    + by destruct (allSettled _ _).
    + by destruct (allSettled _ _).
Qed.

(** Every rendered item was delivered, along the run, by a fetch of the
    current load. *)
Lemma rendered_answered evs v it :
  consistent evs v -> In it (rendered v) ->
  exists rq, In (Settled rq (GotItem it)) evs /\ isCurrent v rq = true.
Proof.
  intros Hc Hin. unfold rendered in Hin.
  destruct (phase v); try done. destruct (listing v) as [ids|]; [|done].
  apply list_elem_of_In, list_elem_of_omap in Hin as (i & _ & Hi).
  destruct (results v !! i) as [r|] eqn:Hr; [|done]. cbn in Hi. subst r.
  destruct (results_answered _ _ Hc i _ Hr) as (rq & o & x & Hev & Hcur & _ & Ho).
  exists rq. split; [|done]. destruct o; try done. by injection Ho as <-.
Qed.

End Invariant.

(** C2: when the listing URL changes while fetches of earlier loads are
    still in flight (they carry a generation no later than the one before
    the change), the new view starts with nothing rendered, the results of
    those fetches have no effect on it however they are interleaved with
    later events, and every item it ever renders was delivered after the
    change by a fetch of a later load issued for the view's current URL. *)
Theorem C2_superseded_results_discarded
    (w : view) (evs0 evs : list event) (u' : string) :
  listingUrl (run w evs0) <> Some u' ->
  let v := run w evs0 in
  let v' := (step v (UrlChanged u')).1 in
  (forall rq, In rq (issued w evs0) -> rq_gen rq <= generation v) /\
  rendered v' = [] /\
  run v' evs
    = run v' (List.filter (fun e => negb (fromLoadUpTo (generation v) e)) evs) /\
  (forall it, In it (rendered (run v' evs)) ->
     exists rq, In (Settled rq (GotItem it)) evs /\
                generation v < rq_gen rq /\
                listingUrl (run v' evs) = Some (rq_url rq)).
Proof.
  intros Hu v v'.
  assert (generation v' = S (generation v)) as Hg.
  { subst v'. by rewrite step_url_changed. }
  split; [intros rq; apply issued_generation|].
  split; [subst v'; by rewrite step_url_changed|].
  split; [apply run_drops_superseded; lia|].
  intros it Hin.
  destruct (rendered_answered evs (run v' evs) it) as (rq & Hev & Hcur); [|done|].
  { apply consistent_run, fresh_url_changed, Hu. }
  apply andb_true_iff in Hcur as [Hgen Hurl].
  apply bool_decide_eq_true in Hgen, Hurl.
  exists rq. repeat split; [done| |done].
  pose proof (generation_run_mono evs v'). lia.
Qed.

Lemma C2_superseded_results_discarded_witness :
  (forall rq, In rq (issued initial Scenario.beforeSwitch) ->
              rq_gen rq <= generation (run initial Scenario.beforeSwitch)) /\
  rendered (step (run initial Scenario.beforeSwitch)
                 (UrlChanged Scenario.newUrl)).1 = [] /\
  run (step (run initial Scenario.beforeSwitch) (UrlChanged Scenario.newUrl)).1
      Scenario.afterSwitch
    = run (step (run initial Scenario.beforeSwitch)
                (UrlChanged Scenario.newUrl)).1
          (List.filter
             (fun e => negb (fromLoadUpTo
                               (generation (run initial Scenario.beforeSwitch))
                               e))
             Scenario.afterSwitch) /\
  (forall it,
     In it (rendered (run (step (run initial Scenario.beforeSwitch)
                                (UrlChanged Scenario.newUrl)).1
                          Scenario.afterSwitch)) ->
     exists rq, In (Settled rq (GotItem it)) Scenario.afterSwitch /\
                generation (run initial Scenario.beforeSwitch) < rq_gen rq /\
                listingUrl (run (step (run initial Scenario.beforeSwitch)
                                      (UrlChanged Scenario.newUrl)).1
                                Scenario.afterSwitch)
                  = Some (rq_url rq)).
Proof.
  apply (C2_superseded_results_discarded initial Scenario.beforeSwitch
           Scenario.afterSwitch Scenario.newUrl).
  vm_compute. discriminate.
Defined.

(** In the scenario the view bound to the new route ends up showing the new
    route's item only. *)
Example scenario_renders_new_only :
  map id (rendered (run initial (Scenario.beforeSwitch
                                   ++ UrlChanged Scenario.newUrl
                                   :: Scenario.afterSwitch))) = [7%Z] /\
  listingUrl (run initial (Scenario.beforeSwitch
                             ++ UrlChanged Scenario.newUrl
                             :: Scenario.afterSwitch)) = Some Scenario.newUrl /\
  listingUrls (App (at_path "/")) = [Scenario.topUrl] /\
  listingUrls (App (at_path "/new")) = [Scenario.newUrl].
Proof. by vm_compute. Qed.

(** C7: the view starts Idle; every step of every run is a transition of
    the Idle, Loading, Ready machine; every change of the listing URL puts
    the view in Loading and starts the listing fetch of a new load; a Ready
    view ignores fetch results, so only a URL change leaves Ready; and the
    view is Ready only when the listing fetch and the item fetch of every
    position of the current load have been answered in the run. *)
Theorem C7_state_machine :
  phase initial = Idle /\
  (forall evs e,
     allowed (phase (run initial evs)) (phase (run initial (evs ++ [e])))
     = true) /\
  (forall v u, listingUrl v <> Some u ->
     phase (step v (UrlChanged u)).1 = Loading /\
     listingUrl (step v (UrlChanged u)).1 = Some u /\
     (step v (UrlChanged u)).2 = [Request (S (generation v)) u Listing]) /\
  (forall evs rq o, phase (run initial evs) = Ready ->
     step (run initial evs) (Settled rq o) = (run initial evs, [])) /\
  (forall evs, phase (run initial evs) = Ready ->
     exists u ids,
       listingUrl (run initial evs) = Some u /\
       listing (run initial evs) = Some ids /\
       (exists rq o, In (Settled rq o) evs /\
                     isCurrent (run initial evs) rq = true /\
                     rq_target rq = Listing /\ ids = listingOf o) /\
       (forall i, i < length ids ->
          exists rq o x, In (Settled rq o) evs /\
                         isCurrent (run initial evs) rq = true /\
                         rq_target rq = ItemAt i x)).
Proof.
  split; [done|]. split; [|split; [|split]].
  - intros evs e. rewrite run_snoc.
    apply (step_allowed evs), consistent_run, fresh_initial.
  - intros v u Hu. by rewrite step_url_changed.
  - intros evs rq o. apply (ready_stable evs), consistent_run, fresh_initial.
  - intros evs Hp.
    pose proof (consistent_run evs initial fresh_initial) as Hc.
    destruct (ready_settled _ _ Hc Hp) as (ids & Hl & Hs).
    destruct (listing_answered _ _ Hc ids Hl) as (rq & o & Hin & Hcur & Ht & Ho).
    exists (rq_url rq), ids. split.
    { apply andb_true_iff in Hcur as [_ Hurl].
      by apply bool_decide_eq_true in Hurl. }
    split; [done|]. split; [by exists rq, o|].
    intros i Hi. destruct (allSettled_lookup ids _ i Hs Hi) as [r Hr].
    destruct (results_answered _ _ Hc i r Hr) as (rq' & o' & x & ? & ? & ? & _).
    by exists rq', o', x.
Qed.

Lemma C7_state_machine_witness :
  phase (step initial (UrlChanged Scenario.topUrl)).1 = Loading /\
  listingUrl (step initial (UrlChanged Scenario.topUrl)).1
    = Some Scenario.topUrl /\
  (step initial (UrlChanged Scenario.topUrl)).2
    = [Request 1 Scenario.topUrl Listing].
Proof.
  apply (proj1 (proj2 (proj2 C7_state_machine)) initial Scenario.topUrl).
  discriminate.
Defined.

(** * Further properties of the routes of [App] *)

Import Paths.

Section LetterCase.

Local Open Scope string_scope.

Lemma toUpper_idem c : toUpper (toUpper c) = toUpper c.
Proof. destruct c as [[] [] [] [] [] [] [] []]; reflexivity. Qed.

Lemma toUpper_slash c : toUpper c = "/"%char -> c = "/"%char.
Proof. destruct c as [[] [] [] [] [] [] [] []]; cbv; congruence. Qed.

Lemma append_nil_l s : "" ++ s = s.
Proof. reflexivity. Qed.

Lemma append_cons c s t : String c s ++ t = String c (s ++ t).
Proof. reflexivity. Qed.

Lemma upcase_app s t : upcase (s ++ t) = upcase s ++ upcase t.
Proof. induction s as [|c s IH]; simpl; [done | by rewrite IH]. Qed.

Lemma upcase_nil s : upcase s = "" -> s = "".
Proof. by destruct s. Qed.

(** A pathname whose upper-case image splits in two splits the same way. *)
Lemma upcase_split q : forall a b,
  upcase q = a ++ b ->
  exists q1 q2, q = q1 ++ q2 /\ upcase q1 = a /\ upcase q2 = b.
Proof.
  induction q as [|c q IH]; intros a b H.
  - destruct a; [|done]. exists "", "". by destruct b.
  - destruct a as [|x a].
    + exists "", (String c q). by rewrite append_nil_l in *.
    + rewrite append_cons in H. cbn [upcase] in H. injection H as Hx Hq.
      destruct (IH a b Hq) as (q1 & q2 & -> & <- & <-).
      exists (String c q1), q2. rewrite append_cons. cbn [upcase].
      by rewrite Hx.
Qed.

Lemma startsWithSlash_upcase s : startsWithSlash (upcase s) = startsWithSlash s.
Proof.
  destruct s as [|c s]; [done|]. cbn.
  destruct (Ascii.eqb_spec (toUpper c) "/") as [H|H].
  - apply toUpper_slash in H as ->. done.
  - destruct (Ascii.eqb_spec c "/") as [->|]; [by destruct H | done].
Qed.

(** What a literal consumes under the [i] flag: a prefix of the input equal
    to the literal up to letter case. *)
Lemma matchLiteral_spec l : forall p m rest,
  matchLiteral true l p = Some (m, rest) <->
  p = m ++ rest /\ upcase m = upcase l.
Proof.
  induction l as [|a l IH]; intros p m rest; cbn [matchLiteral].
  - split.
    + by intros [= <- <-].
    + intros [-> Hm]. by apply upcase_nil in Hm as ->.
  - destruct p as [|b p].
    + split; [done|]. intros [Hp Hm]. by destruct m.
    + cbn [charMatches]. split.
      * destruct (Ascii.eqb_spec (toUpper a) (toUpper b)) as [Hab|]; [|done].
        destruct (matchLiteral true l p) as [[m' rest']|] eqn:E; [|done].
        intros [= <- <-]. apply IH in E as [-> Hm]. cbn. by rewrite Hm, Hab.
      * intros [Hp Hm]. destruct m as [|c m]; [done|].
        cbn in Hp, Hm. injection Hp as -> ->. injection Hm as Hc Hm.
        rewrite Hc, Ascii.eqb_refl.
        by rewrite (proj2 (IH (m ++ rest) m rest) (conj eq_refl Hm)).
Qed.

(** The paths that the "/new" route accepts. *)
Lemma newRoute_paths p :
  routeMatches p newRoute = true <->
  exists m rest, p = m ++ rest /\ upcase m = "/NEW" /\
                 (rest = "" \/ startsWithSlash rest = true).
Proof.
  rewrite newRoute_matches. split.
  - intros (m & rest & Hm & Hr). apply matchLiteral_spec in Hm as [-> Hm].
    by exists m, rest.
  - intros (m & rest & -> & Hm & Hr). exists m, rest. split; [|done].
    by apply matchLiteral_spec.
Qed.

Lemma newRoute_same_case p q :
  upcase p = upcase q ->
  routeMatches p newRoute = true -> routeMatches q newRoute = true.
Proof.
  intros Hpq (m & rest & -> & Hm & Hr)%newRoute_paths. apply newRoute_paths.
  rewrite upcase_app in Hpq. symmetry in Hpq.
  destruct (upcase_split q _ _ Hpq) as (q1 & q2 & -> & H1 & H2).
  exists q1, q2. split; [done|]. split; [congruence|].
  destruct Hr as [->|Hr].
  - left. by apply upcase_nil.
  - right. by rewrite <- startsWithSlash_upcase, H2, startsWithSlash_upcase.
Qed.

Lemma topRoute_same_case p q :
  upcase p = upcase q ->
  routeMatches p topRoute = true -> routeMatches q topRoute = true.
Proof.
  intros Hpq [->| ->]%topRoute_matches; apply topRoute_matches.
  - left. destruct q as [|c [|]]; try done. cbn in Hpq.
    injection Hpq as Hc. symmetry in Hc. by apply toUpper_slash in Hc as ->.
  - right. symmetry in Hpq. by apply upcase_nil.
Qed.

Lemma routeMatches_same_case p q r :
  In r routes -> upcase p = upcase q -> routeMatches p r = routeMatches q r.
Proof.
  intros Hr Hpq.
  assert (forall a b, upcase a = upcase b ->
                      routeMatches a r = true -> routeMatches b r = true) as H.
  { destruct Hr as [<-|[<-|[]]]; intros a b Hab.
    - by apply topRoute_same_case.
    - by apply newRoute_same_case. }
  destruct (routeMatches p r) eqn:Ep, (routeMatches q r) eqn:Eq; try done.
  - apply (H p q) in Ep; congruence.
  - apply (H q p) in Eq; congruence.
Qed.

End LetterCase.

Section AcceptedPaths.

Local Open Scope string_scope.

Lemma startsWithSlash_spec s :
  startsWithSlash s = true <-> exists s', s = "/" ++ s'.
Proof.
  destruct s as [|c s]; cbn [startsWithSlash].
  - split; [done | by intros [s' ?]].
  - destruct (Ascii.eqb_spec c "/") as [->|Hc].
    + split; [by exists s | done].
    + split; [done|]. intros [s' H]. rewrite append_cons in H. congruence.
Qed.

Lemma App_new_only loc :
  App loc = Div "root-container" [NavEl; NewsEl newStories] <->
  routeMatches (pathname loc) newRoute = true.
Proof.
  rewrite App_unfold.
  destruct (routeMatches (pathname loc) topRoute) eqn:Et.
  - rewrite (routes_exclusive _ Et). by split.
  - destruct (routeMatches (pathname loc) newRoute); by split.
Qed.

(** X1: [App] renders the new-stories view, and only it, exactly at the
    pathnames made of "/new" in any letter case followed by nothing or by a
    slash and anything. *)
Theorem X1_new_view_paths (loc : location) :
  App loc = Div "root-container" [NavEl; NewsEl newStories] <->
  exists m rest, pathname loc = m ++ rest /\ upcase m = "/NEW" /\
                 (rest = "" \/ exists rest', rest = "/" ++ rest').
Proof.
  rewrite App_new_only, newRoute_paths.
  split; intros (m & rest & Hp & Hm & Hr); exists m, rest;
    (split; [done|]); (split; [done|]);
    (destruct Hr as [->|Hr]; [by left | right]);
    by apply startsWithSlash_spec.
Qed.

(** X2: a pathname whose first segment goes on after "new" (in any letter
    case) with a character other than a slash, such as "/newest", matches
    no route: [App] renders the navigation bar alone. *)
Theorem X2_longer_first_segment_mounts_nothing
    (loc : location) (m : string) (c : ascii) (rest : string) :
  pathname loc = m ++ String c rest ->
  upcase m = "/NEW" ->
  c <> "/"%char ->
  mounted loc = []%list /\ App loc = Div "root-container" [NavEl].
Proof.
  intros Hp Hm Hc.
  assert (routeMatches (pathname loc) newRoute = false) as Hn.
  { destruct (routeMatches (pathname loc) newRoute) eqn:E; [|done].
    apply newRoute_matches in E as (m0 & rest0 & Hlit & Hr).
    assert (matchLiteral true "/new" (pathname loc) = Some (m, String c rest))
      as Hlit' by (by apply matchLiteral_spec).
    rewrite Hlit' in Hlit. injection Hlit as <- <-.
    destruct Hr as [?|Hr]; [done|]. cbn in Hr.
    by apply Ascii.eqb_eq in Hr. }
  assert (routeMatches (pathname loc) topRoute = false) as Ht.
  { destruct (routeMatches (pathname loc) topRoute) eqn:E; [|done].
    apply topRoute_matches in E. rewrite Hp in E.
    destruct m as [|? [|? ?]]; try done.
    destruct E as [E|E]; rewrite ?append_cons in E; done. }
  by rewrite mounted_unfold, App_unfold, Hn, Ht.
Qed.

Lemma X2_longer_first_segment_mounts_nothing_witness :
  mounted (at_path "/newest") = []%list /\
  App (at_path "/newest") = Div "root-container" [NavEl].
Proof.
  apply (X2_longer_first_segment_mounts_nothing
           (at_path "/newest") "/new" "e" "st").
  - reflexivity.
  - reflexivity.
  - discriminate.
Defined.

(** X3: route matching ignores letter case: two locations whose pathnames
    differ only in the case of ASCII letters mount the same components and
    render the same tree. *)
Theorem X3_letter_case_ignored (l1 l2 : location) :
  upcase (pathname l1) = upcase (pathname l2) ->
  mounted l1 = mounted l2 /\ App l1 = App l2.
Proof.
  intros H. rewrite !mounted_unfold, !App_unfold.
  rewrite (routeMatches_same_case _ _ topRoute ltac:(by left) H).
  rewrite (routeMatches_same_case _ _ newRoute ltac:(right; by left) H).
  done.
Qed.

Lemma X3_letter_case_ignored_witness :
  mounted (at_path "/NEW/Item") = mounted (at_path "/new/item") /\
  App (at_path "/NEW/Item") = App (at_path "/new/item").
Proof.
  apply (X3_letter_case_ignored (at_path "/NEW/Item") (at_path "/new/item")).
  reflexivity.
Defined.

End AcceptedPaths.

(** * The loader rule of [webpack.config.js] *)

Section LoaderRule.

Local Open Scope string_scope.

Lemma matchHere_spec l : forall s, Webpack.matchHere l s = true <-> s = l.
Proof.
  induction l as [|a l IH]; intros [|b s]; cbn [Webpack.matchHere];
    try (split; done).
  rewrite andb_true_iff, IH. split.
  - intros [->%Ascii.eqb_eq ->]. done.
  - intros [= -> ->]. by rewrite Ascii.eqb_refl.
Qed.

(** An expression [/lit$/] accepts exactly the inputs that end in [lit]. *)
Lemma test_spec l s :
  Webpack.test (Webpack.Suffix l) s = true <-> exists stem, s = stem ++ l.
Proof.
  induction s as [|b s IH]; cbn [Webpack.test Webpack.suffixLit];
    rewrite orb_true_iff, matchHere_spec.
  - split.
    + intros [<-|?]; [by exists "" | done].
    + intros [stem H]. left. destruct stem; [done|].
      by rewrite append_cons in H.
  - rewrite IH. split.
    + intros [<-|[stem ->]]; [by exists "" | by exists (String b stem)].
    + intros [[|c stem] H].
      * by left.
      * right. rewrite append_cons in H. injection H as -> ->. by exists stem.
Qed.

(** X4: the build runs babel-loader on exactly the modules whose path ends
    in ".js" (this is case sensitive, and no directory is excluded); every
    other module gets no loader at all. *)
Theorem X4_babel_rule_paths (resource : string) :
  (Webpack.loadersFor Webpack.config resource = ["babel-loader"]%list <->
   exists stem, resource = stem ++ ".js") /\
  (Webpack.loadersFor Webpack.config resource = []%list <->
   ~ exists stem, resource = stem ++ ".js").
Proof.
  rewrite <- (test_spec ".js" resource).
  unfold Webpack.loadersFor, Webpack.config. cbn.
  destruct (Webpack.test (Webpack.Suffix ".js") resource); cbn;
    split; split; done.
Qed.

End LoaderRule.

(** * [App] in the page: pathnames that [decodeURI] accepts or rejects *)

Import History Browser.

Section Decoding.

Local Open Scope string_scope.

Lemma escapedOctet_shape s b r :
  escapedOctet s = Some (b, r) ->
  exists h l, s = String "%" (String h (String l r)).
Proof.
  destruct s as [|p [|h [|l rest]]]; try done. cbn [escapedOctet].
  destruct (Ascii.eqb_spec p "%") as [->|]; [|done].
  destruct (hexDigit h), (hexDigit l); try done.
  intros [= _ <-]. by exists h, l.
Qed.

(** What an escape sequence decodes to never starts with a slash: a slash
    is reserved, so its escape is left as written. *)
Lemma decodeEscape_head s out n :
  decodeEscape s = Some (out, n) ->
  exists c out', out = String c out' /\ c <> "/"%char.
Proof.
  unfold decodeEscape.
  destruct (escapedOctet s) as [[b r1]|] eqn:E; [|done].
  destruct (escapedOctet_shape _ _ _ E) as (h & l & ->).
  destruct (N_of_ascii b <? 128)%N eqn:Hlow.
  { destruct (isReserved b) eqn:Hr; intros [= <- <-].
    - eexists _, _. split; [reflexivity | done].
    - exists b, "". split; [done|]. by intros ->. }
  assert (b <> "/"%char) as Hb by (by intros ->).
  repeat case_match; try done; intros [= <- <-]; by eexists _, _.
Qed.

Lemma decodeFrom_nil s : decodeFrom 0 s = Some "" -> s = "".
Proof.
  destruct s as [|c s]; [done|]. cbn [decodeFrom].
  destruct (Ascii.eqb c "%").
  - destruct (decodeEscape (String c s)) as [[out n]|] eqn:E; [|done].
    destruct (decodeEscape_head _ _ _ E) as (c0 & out' & -> & _).
    by destruct (decodeFrom (n - 1) s).
  - by destruct (decodeFrom 0 s).
Qed.

(** Only the root path decodes to the root path. *)
Lemma decodeURI_root s : decodeURI s = Some "/" -> s = "/".
Proof.
  unfold decodeURI. destruct s as [|c s]; [done|]. cbn [decodeFrom].
  destruct (Ascii.eqb c "%").
  - destruct (decodeEscape (String c s)) as [[out n]|] eqn:E; [|done].
    destruct (decodeEscape_head _ _ _ E) as (c0 & out' & -> & Hc).
    destruct (decodeFrom (n - 1) s); [|done].
    rewrite append_cons. intros [= -> _]. done.
  - destruct (decodeFrom 0 s) as [t|] eqn:Et; [|done].
    intros [= -> ->]. by apply decodeFrom_nil in Et as ->.
Qed.

(** C6 (as amended): at every browser path other than "/" and "/new" whose
    pathname [decodeURI] accepts, evaluating [App] in the page does not
    throw: it renders, at the decoded pathname, the container with the
    navigation bar, followed by nothing when no route matches, by the
    new-stories view when the "/new" route matches, and by the top-stories
    view at the empty pathname. *)
Theorem C6_decodable_path_renders (win : location) (p : string) :
  pathname win <> "/" -> pathname win <> "/new" ->
  decodeURI (pathname win) = Some p ->
  exists loc,
    renderApp win = Normal (App loc) /\ pathname loc = p /\
    ((mounted loc = []%list /\ App loc = Div "root-container" [NavEl]) \/
     (mounted loc = [NewNewsC] /\
      App loc = Div "root-container" [NavEl; NewsEl newStories]) \/
     (pathname loc = "" /\
      App loc = Div "root-container" [NavEl; NewsEl topStories])).
Proof.
  intros Hroot _ Hdec. unfold renderApp, createLocation. rewrite Hdec.
  eexists. split; [reflexivity|]. split; [reflexivity|].
  apply off_root_location_renders. cbn [pathname].
  intros ->. by apply decodeURI_root in Hdec.
Qed.

Lemma C6_decodable_path_renders_witness :
  exists loc,
    renderApp (at_path "/about%20us") = Normal (App loc) /\
    pathname loc = "/about us" /\
    ((mounted loc = []%list /\ App loc = Div "root-container" [NavEl]) \/
     (mounted loc = [NewNewsC] /\
      App loc = Div "root-container" [NavEl; NewsEl newStories]) \/
     (pathname loc = "" /\
      App loc = Div "root-container" [NavEl; NewsEl topStories])).
Proof.
  apply (C6_decodable_path_renders (at_path "/about%20us") "/about us").
  - discriminate.
  - discriminate.
  - reflexivity.
Defined.

(** At a browser path that is neither "/" nor "/new" and whose pathname
    holds a malformed escape sequence, evaluating [App] in the page throws
    a [URIError]. *)
Lemma C6_malformed_path_throws :
  "/%" <> "/" /\ "/%" <> "/new" /\
  renderApp (at_path "/%") = Throw URIError /\
  renderApp (at_path "/new/%") = Throw URIError /\
  renderApp (at_path "/%FF") = Throw URIError.
Proof. repeat split; discriminate || reflexivity. Qed.

End Decoding.
